(** * Timescales: grid characterisation and the irregular DFT

    A shallow embedding of [timescales/specialfreqs.cpp] ([deltaT],
    [maxFreq], [pseudoNyquistFreq]) and [timescales/dft.cpp] ([dft]).

    Modelling conventions.
    - A C++ [double] is an exact rational number ([Qc], canonical fractions,
      so that Leibniz equality is numeric equality).  Rounding, infinities
      and NaN are outside the model; every comparison the code performs is
      the corresponding decidable comparison on [Qc].
    - [std::vector<double>] is [list double]; [v.size()] is [length v],
      [v[i]] is [nth i v 0] (the code only indexes in range) and
      [v.front()] is [hd 0 v].
    - A C++ exception is a value of [exception]; a function that may throw
      returns a [result].  [dft] has an output parameter, so it is a
      computation in a small state-and-exception monad over that buffer.
    - [std::exp] on complex numbers and the constant [pi] come from the
      C++ and Boost libraries; they are parameters of the section that
      embeds [dft]. *)

From Stdlib Require Import QArith Qcanon.
From stdpp Require Import base numbers list strings pretty.

Local Open Scope Qc_scope.

(** ** Numbers *)

Abbreviation double := Qc (only parsing).

(** [typedef std::vector<double> DoubleVec;] (timescales.h) *)
Abbreviation DoubleVec := (list double) (only parsing).

Declare Scope double_scope.
Delimit Scope double_scope with dbl.

Definition Dlt (x y : double) : bool := bool_decide (x < y).
Definition Dgt (x y : double) : bool := bool_decide (y < x).
Definition Dle (x y : double) : bool := bool_decide (x ≤ y).
Definition Deq (x y : double) : bool := bool_decide (x = y).
Definition Dne (x y : double) : bool := negb (Deq x y).

Infix "<?" := Dlt : double_scope.
Infix ">?" := Dgt : double_scope.
Infix "<=?" := Dle : double_scope.
Infix "=?" := Deq : double_scope.
Notation "x !=? y" := (Dne x y) (at level 70, no associativity) : double_scope.

(** The literals [0.5] and [2.0]. *)
Definition half : double := Q2Qc (1 # 2).
Definition two : double := Q2Qc 2.

(** Conversion of a [size_t] to [double], as in [0.5 * times.size()]. *)
Definition double_of_size (n : nat) : double := Q2Qc (inject_Z (Z.of_nat n)).

(** A whole number as a [double]; used to write concrete time stamps. *)
Definition dz (z : Z) : double := Q2Qc (inject_Z z).

(** ** Exceptions and results *)

Inductive exception : Type :=
  | invalid_argument (what : string)   (* std::invalid_argument *)
  | BadLightCurve (what : string)      (* kpftimes::except::BadLightCurve *)
  | NotSorted (what : string)          (* kpfutils::except::NotSorted *)
  | NegativeFreq (what : string).      (* kpftimes::except::NegativeFreq *)

Inductive result (A : Type) : Type :=
  | Ok (a : A)
  | Throw (e : exception).
Arguments Ok {A} a.
Arguments Throw {A} e.

(** ** Grid characterisation (specialfreqs.cpp) *)

Module GridCharacterizer.

Local Open Scope double_scope.

(** Body of the scanning loop of [deltaT]: both tests are made on every
    element, against the running minimum and the running maximum. *)
Definition minmax_step (acc : double * double) (x : double) : double * double :=
  let '(tMin, tMax) := acc in
  let tMin := if x <? tMin then x else tMin in
  let tMax := if x >? tMax then x else tMax in
  (tMin, tMax).

Definition deltaT (times : DoubleVec) : result double :=
  if (length times <? 2)%nat then
    Throw (invalid_argument
      "Parameter 'times' in deltaT() contains fewer than 2 observations")
  else
    let tMin := hd 0 times in
    let tMax := tMin in
    let '(tMin, tMax) := foldl minmax_step (tMin, tMax) times in
    if tMax <=? tMin then
      Throw (BadLightCurve
        "Parameter 'times' in deltaT() contains only one unique value")
    else
      Ok (tMax - tMin).

(** [return 0.5 * times.size() / deltaT(times);] an exception of [deltaT]
    propagates unchanged. *)
Definition pseudoNyquistFreq (times : DoubleVec) : result double :=
  match deltaT times with
  | Throw e => Throw e
  | Ok dT => Ok (half * double_of_size (length times) / dT)
  end.

(** Modelled from the spec: [kpfutils::isSorted] is defined in
    [common/stats.tmp.h], which is not among the sources.  The spec lists it
    as a pure helper over sequences of doubles; [maxFreq] uses it as the
    test for "sorted in ascending order", and both the spec ("fails with
    degenerate-light-curve once sortedness holds" for a series of identical
    time stamps) and the [BadLightCurve] branch of [maxFreq] require a
    series of equal values to pass it.  It is therefore the ascending-order
    test of the C++ library: a single pass that fails at the first element
    smaller than its predecessor. *)
Fixpoint isSorted (l : DoubleVec) : bool :=
  match l with
  | [] => true
  | first :: rest =>
      match rest with
      | [] => true
      | next :: _ => if next <? first then false else isSorted rest
      end
  end.

(** The [while (t2 != times.end())] loop of [maxFreq]: [t1] is the element
    under the first iterator, [rest] is the range from the second iterator
    to the end. *)
Fixpoint gap_loop (t1 : double) (rest : DoubleVec) (minDeltaT : double) : double :=
  match rest with
  | [] => minDeltaT
  | t2 :: rest' =>
      let minDeltaT :=
        if (t2 >? t1) && ((t2 - t1 <? minDeltaT) || (minDeltaT =? 0))
        then t2 - t1 else minDeltaT in
      gap_loop t2 rest' minDeltaT
  end.

Definition maxFreq (times : DoubleVec) : result double :=
  if (length times <? 2)%nat then
    Throw (invalid_argument
      "Parameter 'times' in maxFreq() contains fewer than 2 observations")
  else if negb (isSorted times) then
    Throw (NotSorted "Parameter 'times' in maxFreq() is unsorted")
  else
    let minDeltaT := gap_loop (hd 0 times) (tl times) 0 in
    if minDeltaT =? 0 then
      Throw (BadLightCurve
        "Parameter 'times' in maxFreq() contains only one unique value")
    else
      Ok (half / minDeltaT).

(** The body of [maxFreq] with the order test left open: the helper
    [kpfutils::isSorted] is not among the sources, so here it is a
    parameter.  [maxFreq] above is [maxFreq_with isSorted]. *)
Definition maxFreq_with (sorted : DoubleVec -> bool) (times : DoubleVec)
    : result double :=
  if (length times <? 2)%nat then
    Throw (invalid_argument
      "Parameter 'times' in maxFreq() contains fewer than 2 observations")
  else if negb (sorted times) then
    Throw (NotSorted "Parameter 'times' in maxFreq() is unsorted")
  else
    let minDeltaT := gap_loop (hd 0 times) (tl times) 0 in
    if minDeltaT =? 0 then
      Throw (BadLightCurve
        "Parameter 'times' in maxFreq() contains only one unique value")
    else
      Ok (half / minDeltaT).

(** Modelled from the spec: [kpfutils::isSorted] ([common/stats.tmp.h], not
    among the sources) as the spec's sentence on the order check of
    [maxFreq] words it: "strictly ascending order (no two adjacent equal or
    inverted entries)", "checked in a single linear pass".  The pass fails
    at the first element that is not greater than its predecessor.  The
    spec also has a series of identical time stamps pass the order check
    and reach the degenerate-light-curve error; that reading is [isSorted]
    above. *)
Fixpoint isSortedStrict (l : DoubleVec) : bool :=
  match l with
  | [] => true
  | first :: rest =>
      match rest with
      | [] => true
      | next :: _ => if next <=? first then false else isSortedStrict rest
      end
  end.

End GridCharacterizer.

(** ** The irregular DFT (dft.cpp) *)

(** [std::complex<double>] with the operations [dft] uses. *)
Record Complex : Type := mkComplex { re : double; im : double }.

(** [typedef std::vector<std::complex<double> > ComplexVec;] *)
Abbreviation ComplexVec := (list Complex) (only parsing).

(** [std::complex<double>(x)]: the imaginary part is zero. *)
Definition Cof (x : double) : Complex := mkComplex x 0.
(** [const static std::complex<double> I(0.0, 1.0);] (named [imagI] here,
    [I] being the proof of [True]) *)
Definition imagI : Complex := mkComplex 0 1.
(** unary [operator-] *)
Definition Cneg (z : Complex) : Complex := mkComplex (- re z) (- im z).
(** [operator*(const complex<T>&, const T&)] *)
Definition Cmul_r (z : Complex) (x : double) : Complex := mkComplex (re z * x) (im z * x).
(** [operator*(const T&, const complex<T>&)] *)
Definition Cmul_l (x : double) (z : Complex) : Complex := mkComplex (re z * x) (im z * x).
(** [operator+=] on two complex numbers *)
Definition Cadd (z w : Complex) : Complex := mkComplex (re z + re w) (im z + im w).

(** State-and-exception monad over the output argument of [dft]: a
    computation receives the caller's buffer and returns its outcome together
    with the buffer as the caller sees it afterwards. *)
Module OutM.

Definition M (A : Type) : Type := ComplexVec -> result A * ComplexVec.

Definition ret {A} (a : A) : M A := fun buf => (Ok a, buf).
Definition throw {A} (e : exception) : M A := fun buf => (Throw e, buf).
Definition bind {A B} (m : M A) (k : A -> M B) : M B :=
  fun buf =>
    match m buf with
    | (Ok a, buf') => k a buf'
    | (Throw e, buf') => (Throw e, buf')
    end.
(** [swap(dft, tempDft)]: the caller's buffer receives the local vector; the
    previous contents end up in the local, which is destroyed on return. *)
Definition swap (tempDft : ComplexVec) : M unit := fun _ => (Ok tt, tempDft).

Declare Scope outm_scope.
Delimit Scope outm_scope with outm.
Notation "m ;; k" := (bind m (fun _ => k))
  (at level 100, k at level 200, right associativity) : outm_scope.

End OutM.

Module DftEngine.

Import OutM.
Local Open Scope double_scope.

(** [boost::lexical_cast<std::string>(size_t)]: [None] stands for
    [boost::bad_lexical_cast]; the conversion of an unsigned integer to its
    decimal representation always succeeds. *)
Definition lexical_cast (n : nat) : option string := Some (pretty n).

(** The [try]/[catch] block of the third check: the long message is built
    from both sizes, the short one is the fallback of the handler. *)
Definition length_mismatch (nTimes nFluxes : nat) : exception :=
  match lexical_cast nTimes, lexical_cast nFluxes with
  | Some st, Some sf =>
      invalid_argument
        ("Arguments 'times' and 'fluxes' to dft() are not the same length (gave "
           +:+ st +:+ " for times and " +:+ sf +:+ " for fluxes)")
  | _, _ =>
      invalid_argument
        "Arguments 'times' and 'fluxes' to dft() are not the same length"
  end.

(** The validation loop
    [for (i = 0; i < nTimes && (!diffValues || sortedTimes); i++)].
    [remaining] is [nTimes - i], so [i < nTimes] is [remaining <> 0]; the
    function is called with [remaining = nTimes] and [i = 0]. *)
Fixpoint check_loop (times : DoubleVec) (remaining i : nat)
    (diffValues sortedTimes : bool) : bool * bool :=
  match remaining with
  | O => (diffValues, sortedTimes)
  | S remaining' =>
      if negb diffValues || sortedTimes then
        let diffValues :=
          if negb diffValues && (nth i times 0 !=? nth 0 times 0)
          then true else diffValues in
        let sortedTimes :=
          if sortedTimes && (0 <? i)%nat && (nth (i - 1) times 0 >? nth i times 0)
          then false else sortedTimes in
        check_loop times remaining' (S i) diffValues sortedTimes
      else (diffValues, sortedTimes)
  end.

Section Dft.

(** [boost::math::double_constants::pi] and [std::exp] on complex numbers. *)
Variable pi : double.
Variable cexp : Complex -> Complex.

(** [tempDft[i] += fluxes[j] * exp(-I * omega * times[j]);]  The loops keep
    [i] below [nFreqs], the size of [tempDft], and [j] below [nTimes], the
    size of [times] and, once the checks have passed, of [fluxes]: every
    access is in range. *)
Definition accumulate (times fluxes : DoubleVec) (i : nat) (omega : double)
    (tempDft : ComplexVec) (j : nat) : ComplexVec :=
  <[i := Cadd (nth i tempDft (Cof 0))
              (Cmul_l (nth j fluxes 0)
                      (cexp (Cmul_r (Cmul_r (Cneg imagI) omega) (nth j times 0))))]>
    tempDft.

(** Body of the loop over frequencies. *)
Definition per_freq (times fluxes freqs : DoubleVec) (nTimes : nat)
    (tempDft : ComplexVec) (i : nat) : ComplexVec :=
  let omega := two * pi * nth i freqs 0 in
  foldl (accumulate times fluxes i omega) tempDft (seq 0 nTimes).

Definition dft (times fluxes freqs : DoubleVec) : M unit :=
  let nTimes := length times in
  let nFreqs := length freqs in
  let '(diffValues, sortedTimes) := check_loop times nTimes 0 false true in
  ((if negb diffValues then
     throw (BadLightCurve "Argument 'times' to dft() contains only one unique date")
   else if negb sortedTimes then
     throw (NotSorted "Argument 'times' to dft() is not sorted in ascending order")
   else if negb (length fluxes =? nTimes)%nat then
     throw (length_mismatch nTimes (length fluxes))
   else ret tt) ;;
   let tempDft := replicate nFreqs (Cof 0) in
   let tempDft := foldl (per_freq times fluxes freqs nTimes) tempDft (seq 0 nFreqs) in
   swap tempDft)%outm.

End Dft.

End DftEngine.

(** * Specification vocabulary *)

(** ** Time series *)

Module Series.

(** [x] is immediately followed by [y] somewhere in [l]. *)
Definition adjacent (l : DoubleVec) (x y : double) : Prop :=
  exists i, l !! i = Some x /\ l !! S i = Some y.

(** Ascending order, repetitions allowed. *)
Definition ascending (l : DoubleVec) : Prop :=
  forall x y, adjacent l x y -> x ≤ y.

(** The series contains at least two distinct values. *)
Definition distinct_values (l : DoubleVec) : Prop :=
  exists x y, x ∈ l /\ y ∈ l /\ x ≠ y.

(** The least and the greatest element of a
    series, by their defining properties. *)
Definition is_min (m : double) (l : DoubleVec) : Prop :=
  m ∈ l /\ forall x, x ∈ l -> m ≤ x.
Definition is_max (M : double) (l : DoubleVec) : Prop :=
  M ∈ l /\ forall x, x ∈ l -> x ≤ M.

(** [g] is the difference between some entry and its predecessor. *)
Definition adjacent_gap (l : DoubleVec) (g : double) : Prop :=
  exists x y, adjacent l x y /\ g = y - x.

(** [g] is the least strictly positive adjacent gap of [l]. *)
Definition is_min_pos_gap (g : double) (l : DoubleVec) : Prop :=
  adjacent_gap l g /\ 0 < g /\ forall h, adjacent_gap l h -> 0 < h -> g ≤ h.

(** The grid 0, 1, ..., n-1 with step 1. *)
Definition regular_grid (n : nat) : DoubleVec :=
  map (fun k => dz (Z.of_nat k)) (seq 0 n).

End Series.

(** ** The exceptions thrown, with their messages *)

Module Thrown.

Definition deltaT_too_short : exception :=
  invalid_argument "Parameter 'times' in deltaT() contains fewer than 2 observations".
Definition deltaT_degenerate : exception :=
  BadLightCurve "Parameter 'times' in deltaT() contains only one unique value".

Definition maxFreq_unsorted : exception :=
  NotSorted "Parameter 'times' in maxFreq() is unsorted".
Definition maxFreq_degenerate : exception :=
  BadLightCurve "Parameter 'times' in maxFreq() contains only one unique value".

Definition dft_degenerate : exception :=
  BadLightCurve "Argument 'times' to dft() contains only one unique date".
Definition dft_unsorted : exception :=
  NotSorted "Argument 'times' to dft() is not sorted in ascending order".

(** The message of the third check for given sizes. *)
Definition dft_mismatch (nTimes nFluxes : nat) : exception :=
  invalid_argument
    ("Arguments 'times' and 'fluxes' to dft() are not the same length (gave "
       +:+ pretty nTimes +:+ " for times and " +:+ pretty nFluxes +:+ " for fluxes)").

End Thrown.

(** ** The transform as a sum *)

Module Spectrum.

(** The sum of a list of complex numbers, taken from the
    first element to the last, and the product of a real and a complex. *)
Definition Csum (zs : list Complex) : Complex := foldl Cadd (Cof 0) zs.
Definition Cscale (x : double) (z : Complex) : Complex :=
  mkComplex (x * re z) (x * im z).

Section Terms.

Variable pi : double.
Variable cexp : Complex -> Complex.

(** [x * exp(-i * 2 pi f t)]: the contribution of the sample [(t, x)] at
    frequency [f].  The argument of the exponential is purely imaginary. *)
Definition dft_term (f t x : double) : Complex :=
  Cscale x (cexp (mkComplex 0 (- (two * pi * f * t)))).

(** The transform at [f]: the terms of all samples, summed in input order. *)
Definition dft_at (times fluxes : DoubleVec) (f : double) : Complex :=
  Csum (zip_with (dft_term f) times fluxes).

End Terms.

(** Stand-ins for the library routines, to run [dft] on concrete input: a
    rational approximation of pi and the first-order expansion [1 + z] of
    the exponential. *)
Definition pi_approx : double := Q2Qc (355 # 113).
Definition cexp_order1 (z : Complex) : Complex := mkComplex (1 + re z) (im z).

End Spectrum.

(** ** The validation loop of [dft] *)

Module LoopFacts.

(** What the two flags record once the indices below [upto] were visited.
    A raised flag comes with the index that raised it; a flag that is still
    in its initial state says that no visited index would have raised it. *)
Definition loop_inv (times : DoubleVec) (upto : nat)
    (diffValues sortedTimes : bool) : Prop :=
  (diffValues = true ->
     exists k, (k < length times)%nat /\ nth k times 0 ≠ nth 0 times 0) /\
  (diffValues = false ->
     forall k, (k < upto)%nat -> nth k times 0 = nth 0 times 0) /\
  (sortedTimes = false ->
     exists k, (0 < k < length times)%nat /\ nth k times 0 < nth (k - 1) times 0) /\
  (sortedTimes = true ->
     forall k, (0 < k < upto)%nat -> ¬ nth k times 0 < nth (k - 1) times 0).

End LoopFacts.

(** * Properties *)

(** ** Facts about the comparisons on [double] *)

Lemma Dlt_spec (x y : double) : (x <? y)%dbl = true <-> x < y.
Proof. unfold Dlt. by rewrite bool_decide_eq_true. Qed.

Lemma Dgt_spec (x y : double) : (x >? y)%dbl = true <-> y < x.
Proof. unfold Dgt. by rewrite bool_decide_eq_true. Qed.

Lemma Dle_spec (x y : double) : (x <=? y)%dbl = true <-> x ≤ y.
Proof. unfold Dle. by rewrite bool_decide_eq_true. Qed.

Lemma Deq_spec (x y : double) : (x =? y)%dbl = true <-> x = y.
Proof. unfold Deq. by rewrite bool_decide_eq_true. Qed.

Lemma Dne_spec (x y : double) : (x !=? y)%dbl = true <-> x ≠ y.
Proof.
  unfold Dne, Deq. rewrite negb_true_iff. by rewrite bool_decide_eq_false.
Qed.

Lemma Qc_sub_pos (x y : double) : 0 < y - x <-> x < y.
Proof.
  rewrite (Qcplus_lt_mono_r x y (- x)).
  by rewrite Qcplus_opp_r.
Qed.

Lemma Qc_sub_pos_1 (x y : double) : 0 < y - x -> x < y.
Proof. apply Qc_sub_pos. Qed.

Lemma Qc_sub_pos_2 (x y : double) : x < y -> 0 < y - x.
Proof. apply Qc_sub_pos. Qed.

Lemma Qc_lt_irrefl (x : double) : ¬ x < x.
Proof. intros H. by apply Qclt_not_eq in H. Qed.

Lemma Qc_le_lt_or_eq (x y : double) : x ≤ y -> x < y \/ x = y.
Proof.
  intros H. destruct (decide (x = y)) as [->|Hne]; [by right|left].
  apply Qclt_nge. intros H'. apply Hne. by apply Qcle_antisym.
Qed.

Create HintDb dbl.
#[local] Hint Resolve Qcle_refl Qclt_le_weak : dbl.

(** ** Facts about adjacency *)

Module SeriesFacts.
Import Series.

Lemma adjacent_nil x y : ¬ adjacent [] x y.
Proof. by intros (i & Hx & _). Qed.

Lemma adjacent_singleton a x y : ¬ adjacent [a] x y.
Proof. intros (i & _ & Hy). by destruct i. Qed.

Lemma adjacent_cons a b l x y :
  adjacent (a :: b :: l) x y <-> (x = a /\ y = b) \/ adjacent (b :: l) x y.
Proof.
  split.
  - intros ([|i] & Hx & Hy); simpl in *.
    + left. by simplify_eq.
    + right. by exists i.
  - intros [[-> ->]|(i & Hx & Hy)].
    + by exists 0%nat.
    + by exists (S i).
Qed.

End SeriesFacts.

(** ** [deltaT] *)

Module DeltaTProofs.
Import GridCharacterizer Series Thrown.

Lemma is_min_unique m m' l : is_min m l -> is_min m' l -> m = m'.
Proof. intros [Hm Hle] [Hm' Hle']. apply Qcle_antisym; auto. Qed.

Lemma is_max_unique M M' l : is_max M l -> is_max M' l -> M = M'.
Proof. intros [HM Hle] [HM' Hle']. apply Qcle_antisym; auto. Qed.

(** One step of the scan keeps the pair a lower and an upper bound of
    everything seen, and both components are values that were seen. *)
Lemma minmax_step_bounds tMin tMax x tMin' tMax' :
  minmax_step (tMin, tMax) x = (tMin', tMax') ->
  tMin' ≤ tMin /\ tMin' ≤ x /\ tMax ≤ tMax' /\ x ≤ tMax' /\
  (tMin' = tMin \/ tMin' = x) /\ (tMax' = tMax \/ tMax' = x).
Proof.
  unfold minmax_step, Dlt, Dgt. intros [= <- <-].
  repeat case_bool_decide; repeat split; auto with dbl;
    try (by apply Qcnot_lt_le).
Qed.

Lemma minmax_scan l : forall tMin tMax tMin' tMax',
  foldl minmax_step (tMin, tMax) l = (tMin', tMax') ->
  tMin' ≤ tMin /\ tMax ≤ tMax' /\
  (forall x, x ∈ l -> tMin' ≤ x /\ x ≤ tMax') /\
  (tMin' = tMin \/ tMin' ∈ l) /\ (tMax' = tMax \/ tMax' ∈ l).
Proof.
  induction l as [|a l IH]; intros tMin tMax tMin' tMax'; cbn [foldl].
  - intros [= <- <-]. repeat split; auto with dbl;
      match goal with H : _ ∈ [] |- _ => inversion H end.
  - destruct (minmax_step (tMin, tMax) a) as [m1 M1] eqn:Hstep.
    apply minmax_step_bounds in Hstep as (H1 & H2 & H3 & H4 & H5 & H6).
    intros Hfold. apply IH in Hfold as (I1 & I2 & I3 & I4 & I5).
    split; [by apply Qcle_trans with m1|].
    split; [by apply Qcle_trans with M1|].
    split.
    + intros x Hx. apply elem_of_cons in Hx as [->|Hx]; [|by apply I3].
      split; [by apply Qcle_trans with m1 | by apply Qcle_trans with M1].
    + split.
      * destruct I4 as [->|I4]; [|right; by apply elem_of_cons; right].
        destruct H5 as [->| ->]; [by left | right; apply elem_of_cons; by left].
      * destruct I5 as [->|I5]; [|right; by apply elem_of_cons; right].
        destruct H6 as [->| ->]; [by left | right; apply elem_of_cons; by left].
Qed.

(** Started from the first element, the scan ends on the least and the
    greatest element of a non-empty series. *)
Lemma minmax_scan_front (times : DoubleVec) tMin tMax :
  times ≠ [] ->
  foldl minmax_step (hd 0 times, hd 0 times) times = (tMin, tMax) ->
  is_min tMin times /\ is_max tMax times.
Proof.
  intros Hne Hfold. destruct times as [|t0 rest]; [done|]. simpl hd in Hfold.
  apply minmax_scan in Hfold as (_ & _ & Hall & Hm & HM).
  assert (Hin : t0 ∈ t0 :: rest) by (apply elem_of_cons; by left).
  split; split.
  - by destruct Hm as [->|].
  - intros x Hx. by apply Hall.
  - by destruct HM as [->|].
  - intros x Hx. by apply Hall.
Qed.

Lemma min_max_exist (times : DoubleVec) :
  times ≠ [] -> exists tMin tMax, is_min tMin times /\ is_max tMax times.
Proof.
  intros Hne.
  destruct (foldl minmax_step (hd 0 times, hd 0 times) times) as [m M] eqn:E.
  exists m, M. by apply minmax_scan_front.
Qed.

(** The span is not positive exactly when all values coincide. *)
Lemma span_not_positive_iff_constant (times : DoubleVec) tMin tMax :
  is_min tMin times -> is_max tMax times ->
  (¬ 0 < tMax - tMin <-> forall x y, x ∈ times -> y ∈ times -> x = y).
Proof.
  intros [Hm Hmin] [HM Hmax]. rewrite Qc_sub_pos. split.
  - intros Hn x y Hx Hy. apply Qcnot_lt_le in Hn.
    assert (tMax = tMin) as Heq.
    { apply Qcle_antisym; [done|by apply Hmin]. }
    apply Qcle_antisym.
    + apply Qcle_trans with tMax; [by apply Hmax|rewrite Heq; by apply Hmin].
    + apply Qcle_trans with tMax; [by apply Hmax|rewrite Heq; by apply Hmin].
  - intros Hall Hlt. rewrite (Hall tMin tMax Hm HM) in Hlt.
    by apply Qc_lt_irrefl in Hlt.
Qed.

(** What [deltaT] computes, in terms of the scan. *)
Lemma deltaT_unfold (times : DoubleVec) tMin tMax :
  (2 <= length times)%nat -> is_min tMin times -> is_max tMax times ->
  deltaT times =
    if bool_decide (0 < tMax - tMin) then Ok (tMax - tMin)
    else Throw deltaT_degenerate.
Proof.
  intros Hlen Hmin Hmax. unfold deltaT.
  destruct (Nat.ltb_spec (length times) 2) as [|_]; [lia|].
  assert (times ≠ []) as Hne by (intros ->; simpl in Hlen; lia).
  destruct (foldl minmax_step (hd 0 times, hd 0 times) times) as [m M] eqn:E.
  apply minmax_scan_front in E as [Hm HM]; [|done].
  rewrite (is_min_unique _ _ _ Hmin Hm), (is_max_unique _ _ _ Hmax HM).
  unfold Dle. rewrite (bool_decide_ext _ _ (Qc_sub_pos m M)).
  repeat case_bool_decide; try done.
  - exfalso. by eapply Qcle_not_lt.
  - exfalso. by apply Qcnot_lt_le in H0.
Qed.

(** C5.  For every list of times, in any order: [deltaT] throws
    [std::invalid_argument] exactly when the list has fewer than two
    elements (whatever its values, so the length test comes first);
    otherwise, with [tMin] and [tMax] the least and greatest elements, it
    throws [BadLightCurve] exactly when [tMax - tMin] is not strictly
    positive, and returns [tMax - tMin] exactly when it is. *)
Theorem deltaT_spec (times : DoubleVec) :
  ((length times < 2)%nat <-> deltaT times = Throw deltaT_too_short) /\
  (forall tMin tMax, is_min tMin times -> is_max tMax times ->
     (2 <= length times)%nat ->
     (¬ 0 < tMax - tMin <-> deltaT times = Throw deltaT_degenerate) /\
     (0 < tMax - tMin <-> deltaT times = Ok (tMax - tMin))).
Proof.
  split.
  - split.
    + intros Hlen. unfold deltaT.
      destruct (Nat.ltb_spec (length times) 2) as [_|]; [done|lia].
    + intros Hthrow. destruct (decide (length times < 2)%nat) as [|Hge]; [done|].
      assert (times ≠ []) as Hne by (intros ->; simpl in Hge; lia).
      destruct (min_max_exist times Hne) as (m & M & Hm & HM).
      rewrite (deltaT_unfold times m M) in Hthrow by (done || lia).
      by case_bool_decide.
  - intros tMin tMax Hmin Hmax Hlen.
    rewrite (deltaT_unfold times tMin tMax) by done.
    case_bool_decide; split; split; done.
Qed.

(** The theorem at the unsorted series 3, 1, 2: the span is 2. *)
Lemma deltaT_spec_witness : deltaT [dz 3; dz 1; dz 2] = Ok (dz 3 - dz 1).
Proof.
  apply (deltaT_spec [dz 3; dz 1; dz 2]).
  - split; [apply list_elem_of_In; simpl; auto|]. intros x Hx.
    repeat (apply elem_of_cons in Hx as [->|Hx]); first [by vm_compute | inversion Hx].
  - split; [apply list_elem_of_In; simpl; auto|]. intros x Hx.
    repeat (apply elem_of_cons in Hx as [->|Hx]); first [by vm_compute | inversion Hx].
  - simpl. lia.
  - by vm_compute.
Defined.

End DeltaTProofs.

(** ** [pseudoNyquistFreq] *)

Module PseudoNyquistProofs.
Import GridCharacterizer Series Thrown DeltaTProofs.

(** C9.  [pseudoNyquistFreq] fails with exactly the exception [deltaT]
    fails with, and when [deltaT] returns [dT] it returns
    [0.5 * N / dT], [N] being the number of samples.  Hence: too short a
    series gives [std::invalid_argument], a longer series of coinciding
    values gives [BadLightCurve], and every other series, in whatever
    order, gives a value. *)
Theorem pseudoNyquistFreq_spec (times : DoubleVec) :
  (forall e, deltaT times = Throw e -> pseudoNyquistFreq times = Throw e) /\
  (forall dT, deltaT times = Ok dT ->
     pseudoNyquistFreq times = Ok (half * double_of_size (length times) / dT)) /\
  ((length times < 2)%nat -> pseudoNyquistFreq times = Throw deltaT_too_short) /\
  ((2 <= length times)%nat -> (forall x y, x ∈ times -> y ∈ times -> x = y) ->
     pseudoNyquistFreq times = Throw deltaT_degenerate) /\
  ((2 <= length times)%nat -> (exists x y, x ∈ times /\ y ∈ times /\ x ≠ y) ->
     exists dT, 0 < dT /\ deltaT times = Ok dT /\
       pseudoNyquistFreq times = Ok (half * double_of_size (length times) / dT)).
Proof.
  unfold pseudoNyquistFreq. repeat split.
  - by intros e ->.
  - by intros dT ->.
  - intros Hlen. unfold deltaT.
    destruct (Nat.ltb_spec (length times) 2) as [_|]; [done|lia].
  - intros Hlen Hall.
    assert (times ≠ []) as Hne by (intros ->; simpl in Hlen; lia).
    destruct (min_max_exist times Hne) as (m & M & Hm & HM).
    rewrite (deltaT_unfold times m M) by done.
    apply (span_not_positive_iff_constant times m M Hm HM) in Hall.
    by case_bool_decide.
  - intros Hlen (x & y & Hx & Hy & Hxy).
    assert (times ≠ []) as Hne by (intros ->; simpl in Hlen; lia).
    destruct (min_max_exist times Hne) as (m & M & Hm & HM).
    rewrite (deltaT_unfold times m M) by done.
    case_bool_decide as Hpos; [by exists (M - m)|].
    exfalso. apply Hxy.
    by apply (span_not_positive_iff_constant times m M Hm HM).
Qed.

(** The theorem at the unsorted two-point series 5, 1: the span is 4 and the
    result is 0.5 * 2 / 4. *)
Lemma pseudoNyquistFreq_spec_witness :
  pseudoNyquistFreq [dz 5; dz 1] = Ok (half * double_of_size 2 / dz 4).
Proof.
  apply (pseudoNyquistFreq_spec [dz 5; dz 1]). by vm_compute.
Defined.

End PseudoNyquistProofs.

(** ** [maxFreq] *)

Module MaxFreqProofs.
Import GridCharacterizer Series Thrown SeriesFacts.

Lemma adjacent_gap_cons a b l g :
  adjacent_gap (a :: b :: l) g <-> g = b - a \/ adjacent_gap (b :: l) g.
Proof.
  unfold adjacent_gap. split.
  - intros (x & y & Hadj & ->). apply adjacent_cons in Hadj as [[-> ->]|Hadj].
    + by left.
    + right. by exists x, y.
  - intros [->|(x & y & Hadj & ->)].
    + exists a, b. split; [|done]. apply adjacent_cons. by left.
    + exists x, y. split; [|done]. apply adjacent_cons. by right.
Qed.

(** The modelled [isSorted] accepts exactly the ascending series. *)
Lemma isSorted_spec (l : DoubleVec) : isSorted l = true <-> ascending l.
Proof.
  induction l as [|a l IH].
  - split; [|done]. intros _ x y H. by apply adjacent_nil in H.
  - destruct l as [|b l].
    + split; [|done]. intros _ x y H. by apply adjacent_singleton in H.
    + change (isSorted (a :: b :: l))
        with (if (b <? a)%dbl then false else isSorted (b :: l)).
      unfold Dlt. case_bool_decide as Hba.
      * split; [done|]. intros Hasc. exfalso.
        apply (Qclt_not_le _ _ Hba). apply Hasc, adjacent_cons. by left.
      * rewrite IH. apply Qcnot_lt_le in Hba. split.
        -- intros Hasc x y [[-> ->]|Hadj]%adjacent_cons; [done|by apply Hasc].
        -- intros Hasc x y Hadj. apply Hasc, adjacent_cons. by right.
Qed.

(** One iteration of the gap loop: either the running value is kept, and
    then the new gap, if positive, is not below it, or the new gap, which is
    positive, replaces a running value that is not below it. *)
Lemma gap_step_spec (t1 t2 m0 : double) :
  0 ≤ m0 ->
  let m1 := if ((t2 >? t1) && ((t2 - t1 <? m0) || (m0 =? 0)))%dbl
            then t2 - t1 else m0 in
  (m1 = m0 /\ (0 < t2 - t1 -> 0 < m0 /\ m0 ≤ t2 - t1)) \/
  (m1 = t2 - t1 /\ 0 < t2 - t1 /\ (0 < m0 -> t2 - t1 ≤ m0)).
Proof.
  intros Hm0. unfold Dgt, Dlt, Deq. cbn zeta.
  case_bool_decide as Hgt; cbn [andb].
  - repeat case_bool_decide; cbn [orb].
    + right. repeat split; [by apply Qc_sub_pos_2|]. intros _. by apply Qclt_le_weak.
    + right. repeat split; [by apply Qc_sub_pos_2|]. intros _. by apply Qclt_le_weak.
    + right. repeat split; [by apply Qc_sub_pos_2|]. subst m0.
      intros H0. by apply Qc_lt_irrefl in H0.
    + left. split; [done|]. intros _. split.
      * destruct (Qc_le_lt_or_eq _ _ Hm0) as [|Heq]; [done|]. by symmetry in Heq.
      * by apply Qcnot_lt_le.
  - left. split; [done|]. intros Hpos. by apply Qc_sub_pos_1 in Hpos.
Qed.

Lemma gap_loop_spec (rest : DoubleVec) : forall t1 m0,
  0 ≤ m0 ->
  let r := gap_loop t1 rest m0 in
  (r = m0 \/ (adjacent_gap (t1 :: rest) r /\ 0 < r)) /\
  (0 < m0 -> 0 < r /\ r ≤ m0) /\
  (forall h, adjacent_gap (t1 :: rest) h -> 0 < h -> 0 < r /\ r ≤ h).
Proof.
  induction rest as [|t2 rest IH]; intros t1 m0 Hm0; cbn zeta.
  - simpl. split; [by left|]. split; [intros Hpos; split; auto with dbl|].
    intros h (x & y & Hadj & _). by apply adjacent_singleton in Hadj.
  - cbn [gap_loop].
    pose proof (gap_step_spec t1 t2 m0 Hm0) as Hstep. cbn zeta in Hstep.
    set (m1 := if ((t2 >? t1) && ((t2 - t1 <? m0) || (m0 =? 0)))%dbl
               then t2 - t1 else m0) in *.
    assert (0 ≤ m1) as Hm1.
    { destruct Hstep as [[-> _]|(-> & Hpos & _)]; auto with dbl. }
    destruct (IH t2 m1 Hm1) as (I1 & I2 & I3). cbn zeta in I1, I2, I3.
    set (r := gap_loop t2 rest m1) in *.
    split; [|split].
    + destruct I1 as [Hr|[Hgap Hpos]].
      * destruct Hstep as [[Hk _]|(Hk & Hpos & _)].
        -- left. congruence.
        -- right. rewrite Hr, Hk. split; [|done]. apply adjacent_gap_cons. by left.
      * right. split; [|done]. apply adjacent_gap_cons. by right.
    + intros Hpos0. destruct Hstep as [[Hk _]|(Hk & Hpos & Hle)].
      * rewrite <- Hk. apply I2. by rewrite Hk.
      * destruct I2 as [Hr Hrle]; [by rewrite Hk|]. split; [done|].
        apply Qcle_trans with m1; [done|]. rewrite Hk. by apply Hle.
    + intros h [->|Hgap]%adjacent_gap_cons Hh.
      * destruct Hstep as [[Hk Hkeep]|(Hk & Hpos & Hle)].
        -- destruct (Hkeep Hh) as [Hpos0 Hle0].
           destruct I2 as [Hr Hrle]; [by rewrite Hk|]. split; [done|].
           apply Qcle_trans with m0; [by rewrite <- Hk|done].
        -- destruct I2 as [Hr Hrle]; [by rewrite Hk|]. split; [done|].
           by rewrite <- Hk.
      * by apply I3.
Qed.

(** A series without ascending order contains an inversion. *)
Lemma isSorted_false (l : DoubleVec) :
  isSorted l = false -> exists x y, adjacent l x y /\ y < x.
Proof.
  induction l as [|a l IH]; [done|]. destruct l as [|b l]; [done|].
  change (isSorted (a :: b :: l))
    with (if (b <? a)%dbl then false else isSorted (b :: l)).
  unfold Dlt. case_bool_decide as Hba.
  - intros _. exists a, b. split; [|done]. apply adjacent_cons. by left.
  - intros (x & y & Hadj & Hlt)%IH. exists x, y. split; [|done].
    apply adjacent_cons. by right.
Qed.

(** The value of [maxFreq] once the size and order tests have passed. *)
Lemma maxFreq_unfold (times : DoubleVec) :
  (2 <= length times)%nat -> ascending times ->
  maxFreq times =
    let minDeltaT := gap_loop (hd 0 times) (tl times) 0 in
    if (minDeltaT =? 0)%dbl then Throw maxFreq_degenerate
    else Ok (half / minDeltaT).
Proof.
  intros Hlen Hasc. unfold maxFreq.
  destruct (Nat.ltb_spec (length times) 2) as [|_]; [lia|].
  apply isSorted_spec in Hasc. by rewrite Hasc.
Qed.

(** C6.  For an ascending series of at least two times: if some adjacent
    gap is strictly positive, [maxFreq] returns [0.5 / g] for the least
    strictly positive adjacent gap [g]; if no adjacent gap is strictly
    positive, in particular if all elements are equal, it throws
    [BadLightCurve]. *)
Theorem maxFreq_sorted (times : DoubleVec) :
  (2 <= length times)%nat -> ascending times ->
  ((exists h, adjacent_gap times h /\ 0 < h) ->
     exists g, is_min_pos_gap g times /\ maxFreq times = Ok (half / g)) /\
  ((forall h, adjacent_gap times h -> ¬ 0 < h) ->
     maxFreq times = Throw maxFreq_degenerate) /\
  ((forall x y, x ∈ times -> y ∈ times -> x = y) ->
     maxFreq times = Throw maxFreq_degenerate).
Proof.
  intros Hlen Hasc. rewrite (maxFreq_unfold times Hlen Hasc). cbn zeta.
  destruct times as [|t0 rest]; [simpl in Hlen; lia|]. cbn [hd tl].
  destruct (gap_loop_spec rest t0 0 (Qcle_refl 0)) as (I1 & _ & I3).
  cbn zeta in I1, I3. set (r := gap_loop t0 rest 0) in *.
  assert ((forall h, adjacent_gap (t0 :: rest) h -> ¬ 0 < h) ->
          (if (r =? 0)%dbl then Throw maxFreq_degenerate else Ok (half / r))
          = Throw maxFreq_degenerate) as Hnone.
  { intros Hno. destruct I1 as [->|[Hgap Hpos]]; [done|].
    by apply Hno in Hgap. }
  split; [|split; [done|]].
  - intros (h & Hgap & Hpos). destruct (I3 h Hgap Hpos) as [Hr _].
    exists r. split.
    + destruct I1 as [Hz|[Hg _]].
      * rewrite Hz in Hr. by apply Qc_lt_irrefl in Hr.
      * repeat split; [done..|]. intros h' Hgap' Hpos'. by apply I3.
    + unfold Deq. case_bool_decide as Hz; [|done].
      rewrite Hz in Hr. by apply Qc_lt_irrefl in Hr.
  - intros Hall. apply Hnone. intros h (x & y & (i & Hx & Hy) & ->) Hpos.
    apply list_elem_of_lookup_2 in Hx, Hy. rewrite (Hall x y Hx Hy) in Hpos.
    apply Qc_sub_pos_1 in Hpos. by apply Qc_lt_irrefl in Hpos.
Qed.

(** The theorem at the ascending series 0, 1, 1, 3, whose gaps are 1, 0, 2. *)
Lemma maxFreq_sorted_witness :
  exists g, is_min_pos_gap g [dz 0; dz 1; dz 1; dz 3] /\
    maxFreq [dz 0; dz 1; dz 1; dz 3] = Ok (half / g).
Proof.
  apply (maxFreq_sorted [dz 0; dz 1; dz 1; dz 3]).
  - simpl. lia.
  - apply isSorted_spec. reflexivity.
  - exists (dz 1 - dz 0). split; [|by vm_compute].
    exists (dz 0), (dz 1). split; [|done]. by exists 0%nat.
Defined.

(** With the order test of the ascending reading, the parametrised body is
    [maxFreq] itself. *)
Lemma maxFreq_with_isSorted (times : DoubleVec) :
  maxFreq_with isSorted times = maxFreq times.
Proof. reflexivity. Qed.

(** The strict order test accepts exactly the series in which every entry
    is greater than its predecessor. *)
Lemma isSortedStrict_spec (l : DoubleVec) :
  isSortedStrict l = true <-> forall x y, adjacent l x y -> x < y.
Proof.
  induction l as [|a l IH].
  - split; [|done]. intros _ x y H. by apply adjacent_nil in H.
  - destruct l as [|b l].
    + split; [|done]. intros _ x y H. by apply adjacent_singleton in H.
    + change (isSortedStrict (a :: b :: l))
        with (if (b <=? a)%dbl then false else isSortedStrict (b :: l)).
      unfold Dle. case_bool_decide as Hba.
      * split; [done|]. intros Hasc. exfalso.
        apply (Qcle_not_lt _ _ Hba). apply Hasc, adjacent_cons. by left.
      * rewrite IH. apply Qcnot_le_lt in Hba. split.
        -- intros Hasc x y [[-> ->]|Hadj]%adjacent_cons; [done|by apply Hasc].
        -- intros Hasc x y Hadj. apply Hasc, adjacent_cons. by right.
Qed.




End MaxFreqProofs.

(** ** The regular grid of 100 points *)

Module RegularGrid.
Import GridCharacterizer Series.

(** C8, as amended.  On the grid 0, 1, ..., 99: [deltaT] returns 99,
    [maxFreq] returns 0.5 and [pseudoNyquistFreq] returns
    0.5 * 100 / 99 = 50/99. *)
Theorem regular_grid_100 :
  deltaT (regular_grid 100) = Ok (dz 99) /\
  maxFreq (regular_grid 100) = Ok half /\
  pseudoNyquistFreq (regular_grid 100) = Ok (Q2Qc (50 # 99)).
Proof. repeat split; by vm_compute. Qed.

(** C8 as stated fails: the third value is not 50. *)
Lemma regular_grid_100_not_50 :
  ¬ (deltaT (regular_grid 100) = Ok (dz 99) /\
     maxFreq (regular_grid 100) = Ok half /\
     pseudoNyquistFreq (regular_grid 100) = Ok (dz 50)).
Proof. intros (_ & _ & H). vm_compute in H. discriminate H. Qed.

End RegularGrid.

(** ** [dft]: the validation loop *)

Module DftValidation.
Import Series SeriesFacts LoopFacts OutM DftEngine.

Lemma loop_inv_init (times : DoubleVec) : loop_inv times 0 false true.
Proof. repeat split; try done; intros; lia. Qed.

(** When the loop stops early both flags are final. *)
Lemma loop_inv_exit (times : DoubleVec) (i : nat) :
  loop_inv times i true false -> loop_inv times (length times) true false.
Proof. intros (H1 & _ & H3 & _). by repeat split. Qed.

Lemma loop_inv_step (times : DoubleVec) (i : nat) (diffValues sortedTimes : bool) :
  (i < length times)%nat ->
  loop_inv times i diffValues sortedTimes ->
  loop_inv times (S i)
    (if negb diffValues && (nth i times 0 !=? nth 0 times 0)%dbl
     then true else diffValues)
    (if sortedTimes && (0 <? i)%nat && (nth (i - 1) times 0 >? nth i times 0)%dbl
     then false else sortedTimes).
Proof.
  intros Hi (H1 & H2 & H3 & H4). unfold loop_inv.
  destruct (nth i times 0 !=? nth 0 times 0)%dbl eqn:Hne;
    [apply Dne_spec in Hne | apply not_true_iff_false in Hne; rewrite Dne_spec in Hne].
  all: destruct (nth (i - 1) times 0 >? nth i times 0)%dbl eqn:Hgt;
    [apply Dgt_spec in Hgt | apply not_true_iff_false in Hgt; rewrite Dgt_spec in Hgt].
  all: destruct (Nat.ltb_spec 0 i) as [Hpos|Hzero].
  all: destruct diffValues, sortedTimes; cbn [negb andb].
  all: repeat split; try done; try (by eauto).
  all: try (intros _; exists i; split; [lia|done]).
  all: try (intros _ k Hk; destruct (decide (k = i)) as [->|];
            [done || lia | (apply H2 || apply H4); [done|lia]]).
  all: try (intros _ k Hk; destruct (decide (k = i)) as [->|];
            [by apply dec_stable | apply H2; [done|lia]]).
Qed.

Lemma check_loop_inv (times : DoubleVec) : forall remaining i diffValues sortedTimes,
  (i + remaining = length times)%nat ->
  loop_inv times i diffValues sortedTimes ->
  loop_inv times (length times)
    (check_loop times remaining i diffValues sortedTimes).1
    (check_loop times remaining i diffValues sortedTimes).2.
Proof.
  induction remaining as [|remaining IH]; intros i diffValues sortedTimes Hlen Hinv.
  - simpl. by replace (length times) with i by lia.
  - cbn [check_loop]. destruct (negb diffValues || sortedTimes) eqn:Hgo.
    + apply IH; [lia|]. apply loop_inv_step; [lia|done].
    + destruct diffValues, sortedTimes; try done. simpl. by eapply loop_inv_exit.
Qed.

(** Reading the index-level facts as properties of the series. *)
Lemma nth_in (times : DoubleVec) (k : nat) :
  (k < length times)%nat -> times !! k = Some (nth k times 0).
Proof.
  intros Hk. destruct (nth_lookup_or_length times k 0) as [|]; [done|lia].
Qed.

Lemma differs_distinct (times : DoubleVec) :
  (exists k, (k < length times)%nat /\ nth k times 0 ≠ nth 0 times 0) ->
  distinct_values times.
Proof.
  intros (k & Hk & Hne). exists (nth k times 0), (nth 0 times 0).
  split; [|split; [|done]].
  - eapply list_elem_of_lookup_2. by apply nth_in.
  - eapply list_elem_of_lookup_2. apply nth_in. lia.
Qed.

Lemma constant_not_distinct (times : DoubleVec) :
  (forall k, (k < length times)%nat -> nth k times 0 = nth 0 times 0) ->
  ¬ distinct_values times.
Proof.
  intros Hall (x & y & [i Hx]%list_elem_of_lookup_1 & [j Hy]%list_elem_of_lookup_1 & Hne).
  apply Hne.
  rewrite <- (nth_lookup_Some _ _ 0 _ Hx), <- (nth_lookup_Some _ _ 0 _ Hy).
  rewrite (Hall i) by (by eapply lookup_lt_Some).
  by rewrite (Hall j) by (by eapply lookup_lt_Some).
Qed.

Lemma descent_inversion (times : DoubleVec) :
  (exists k, (0 < k < length times)%nat /\ nth k times 0 < nth (k - 1) times 0) ->
  exists x y, adjacent times x y /\ y < x.
Proof.
  intros (k & Hk & Hlt). exists (nth (k - 1) times 0), (nth k times 0).
  split; [|done]. exists (k - 1)%nat. split; [apply nth_in; lia|].
  replace (S (k - 1)) with k by lia. apply nth_in; lia.
Qed.

Lemma no_descent_ascending (times : DoubleVec) :
  (forall k, (0 < k < length times)%nat -> ¬ nth k times 0 < nth (k - 1) times 0) ->
  ascending times.
Proof.
  intros Hall x y (i & Hx & Hy). apply Qcnot_lt_le.
  rewrite <- (nth_lookup_Some _ _ 0 _ Hx), <- (nth_lookup_Some _ _ 0 _ Hy).
  replace i with (S i - 1)%nat at 2 by lia. apply Hall.
  apply lookup_lt_Some in Hy. lia.
Qed.

Lemma inversion_not_ascending (times : DoubleVec) :
  (exists x y, adjacent times x y /\ y < x) -> ¬ ascending times.
Proof.
  intros (x & y & Hadj & Hlt) Hasc. apply (Qclt_not_le _ _ Hlt). by apply Hasc.
Qed.

(** The flags after the loop, as properties of [times]. *)
Lemma check_loop_spec (times : DoubleVec) (diffValues sortedTimes : bool) :
  check_loop times (length times) 0 false true = (diffValues, sortedTimes) ->
  (diffValues = true <-> distinct_values times) /\
  (sortedTimes = true <-> ascending times) /\
  (sortedTimes = false <-> exists x y, adjacent times x y /\ y < x).
Proof.
  intros Hloop.
  pose proof (check_loop_inv times (length times) 0 false true
                eq_refl (loop_inv_init times)) as Hinv.
  rewrite Hloop in Hinv. destruct Hinv as (H1 & H2 & H3 & H4). cbn [fst snd] in *.
  split; [|split].
  - split; [intros Hd; by apply differs_distinct, H1|].
    intros Hd. destruct diffValues; [done|].
    exfalso. by apply (constant_not_distinct times); [apply H2|].
  - split; [intros Hs; by apply no_descent_ascending, H4|].
    intros Hasc. destruct sortedTimes; [done|].
    exfalso. by apply (inversion_not_ascending times); [apply descent_inversion, H3|].
  - split; [intros Hs; by apply descent_inversion, H3|].
    intros Hinv. destruct sortedTimes; [|done].
    exfalso. by apply (inversion_not_ascending times); [|apply no_descent_ascending, H4].
Qed.

End DftValidation.

(** ** [dft]: the summation *)

Module DftSum.
Import Series Thrown Spectrum OutM DftEngine DftValidation.

Section Summation.

Variable pi : double.
Variable cexp : Complex -> Complex.

(** The term as the code writes it. *)
Lemma code_term_eq (f t x : double) :
  Cmul_l x (cexp (Cmul_r (Cmul_r (Cneg imagI) (two * pi * f)) t)) = dft_term pi cexp f t x.
Proof.
  assert (Cmul_r (Cmul_r (Cneg imagI) (two * pi * f)) t
          = mkComplex 0 (- (two * pi * f * t))) as ->.
  { unfold Cmul_r, Cneg, imagI. cbn [re im]. f_equal; ring. }
  unfold dft_term, Cmul_l, Cscale. f_equal; apply Qcmult_comm.
Qed.

(** The inner loop only ever touches entry [i], to which it adds the terms
    of the visited samples one after the other. *)
Lemma foldl_accumulate (times fluxes : DoubleVec) (i : nat) (f : double)
    (js : list nat) : forall tempDft : ComplexVec,
  (i < length tempDft)%nat ->
  foldl (accumulate cexp times fluxes i (two * pi * f)) tempDft js =
  <[i := foldl (fun acc j => Cadd acc (dft_term pi cexp f (nth j times 0) (nth j fluxes 0)))
               (nth i tempDft (Cof 0)) js]> tempDft.
Proof.
  induction js as [|j js IH]; intros tempDft Hi; cbn [foldl].
  - symmetry. apply list_insert_id.
    destruct (nth_lookup_or_length tempDft i (Cof 0)) as [|]; [done|lia].
  - rewrite IH by (unfold accumulate; by rewrite length_insert).
    unfold accumulate. rewrite list_insert_insert_eq. f_equal.
    rewrite (nth_lookup_Some _ i (Cof 0) _ (list_lookup_insert_eq _ _ _ Hi)).
    by rewrite code_term_eq.
Qed.

(** The samples visited by index are the samples of the series. *)
Lemma zip_with_by_index {C} (g : double -> double -> C) (times : DoubleVec) :
  forall fluxes : DoubleVec, length fluxes = length times ->
  (fun j => g (nth j times 0) (nth j fluxes 0)) <$> seq 0 (length times)
  = zip_with g times fluxes.
Proof.
  induction times as [|t times IH]; intros [|x fluxes] Hlen; try done.
  cbn [length seq fmap list_fmap zip_with]. f_equal.
  rewrite <- fmap_S_seq, <- list_fmap_compose.
  apply IH. simpl in Hlen. lia.
Qed.

Lemma map_by_index {C} (h : double -> C) (freqs : DoubleVec) :
  (fun i => h (nth i freqs 0)) <$> seq 0 (length freqs) = h <$> freqs.
Proof.
  induction freqs as [|f freqs IH]; [done|].
  cbn [length seq fmap list_fmap]. f_equal.
  by rewrite <- fmap_S_seq, <- list_fmap_compose.
Qed.

(** One pass of the loop over frequencies. *)
Lemma per_freq_eq (times fluxes freqs : DoubleVec) (tempDft : ComplexVec) (i : nat) :
  length fluxes = length times ->
  (i < length tempDft)%nat ->
  nth i tempDft (Cof 0) = Cof 0 ->
  per_freq pi cexp times fluxes freqs (length times) tempDft i
  = <[i := dft_at pi cexp times fluxes (nth i freqs 0)]> tempDft.
Proof.
  intros Hlen Hi Hzero. unfold per_freq. cbn zeta.
  rewrite foldl_accumulate by done. rewrite Hzero. f_equal.
  unfold dft_at, Csum. rewrite <- (zip_with_by_index _ times fluxes Hlen).
  by rewrite foldl_fmap.
Qed.

(** After [k] passes the first [k] entries hold their sums and the others
    are still zero. *)
Lemma foldl_per_freq (times fluxes freqs : DoubleVec) (k : nat) :
  length fluxes = length times ->
  (k <= length freqs)%nat ->
  foldl (per_freq pi cexp times fluxes freqs (length times))
        (replicate (length freqs) (Cof 0)) (seq 0 k)
  = ((fun i => dft_at pi cexp times fluxes (nth i freqs 0)) <$> seq 0 k)
      ++ replicate (length freqs - k) (Cof 0).
Proof.
  intros Hlen. induction k as [|k IH]; intros Hk.
  - simpl. by rewrite Nat.sub_0_r.
  - rewrite seq_S, foldl_app, fmap_app. cbn [foldl fmap list_fmap Nat.add].
    rewrite IH by lia.
    set (done_part := (λ i, dft_at pi cexp times fluxes (nth i freqs 0)) <$> seq 0 k).
    assert (length done_part = k) as Hdone
      by (unfold done_part; by rewrite length_fmap, length_seq).
    replace (length freqs - k)%nat with (S (length freqs - S k)) by lia.
    rewrite per_freq_eq; [|done| |].
    + rewrite insert_app_r_alt by lia.
      replace (k - length done_part)%nat with 0%nat by lia.
      by rewrite <- app_assoc.
    + rewrite length_app, length_replicate. lia.
    + rewrite app_nth2 by lia.
      by replace (k - length done_part)%nat with 0%nat by lia.
Qed.

(** What a call of [dft] does, by the outcome of its validation loop. *)
Lemma dft_unfold (times fluxes freqs : DoubleVec) (out : ComplexVec) :
  dft pi cexp times fluxes freqs out =
    let '(diffValues, sortedTimes) := check_loop times (length times) 0 false true in
    if negb diffValues then (Throw dft_degenerate, out)
    else if negb sortedTimes then (Throw dft_unsorted, out)
    else if negb (length fluxes =? length times)%nat
    then (Throw (length_mismatch (length times) (length fluxes)), out)
    else (Ok tt,
          foldl (per_freq pi cexp times fluxes freqs (length times))
                (replicate (length freqs) (Cof 0)) (seq 0 (length freqs))).
Proof.
  unfold dft, bind, throw, ret, swap.
  destruct (check_loop times (length times) 0 false true) as [[] []];
    cbn [negb]; try done.
  by destruct (length fluxes =? length times)%nat.
Qed.

(** The four outcomes of [dft], by the properties of its arguments. *)
Lemma dft_throws_degenerate (times fluxes freqs : DoubleVec) (out : ComplexVec) :
  ¬ distinct_values times ->
  dft pi cexp times fluxes freqs out = (Throw dft_degenerate, out).
Proof.
  intros Hnd. rewrite dft_unfold.
  destruct (check_loop times (length times) 0 false true) as [d s] eqn:Hloop.
  apply check_loop_spec in Hloop as (Hd & _ & _).
  destruct d; [|done]. exfalso. by apply Hnd, Hd.
Qed.

Lemma dft_throws_unsorted (times fluxes freqs : DoubleVec) (out : ComplexVec) :
  distinct_values times -> ¬ ascending times ->
  dft pi cexp times fluxes freqs out = (Throw dft_unsorted, out).
Proof.
  intros Hdist Hnasc. rewrite dft_unfold.
  destruct (check_loop times (length times) 0 false true) as [d s] eqn:Hloop.
  apply check_loop_spec in Hloop as (Hd & Hs & _).
  apply Hd in Hdist as ->. destruct s; [|done]. exfalso. by apply Hnasc, Hs.
Qed.

Lemma dft_throws_mismatch (times fluxes freqs : DoubleVec) (out : ComplexVec) :
  distinct_values times -> ascending times -> length fluxes ≠ length times ->
  dft pi cexp times fluxes freqs out
  = (Throw (length_mismatch (length times) (length fluxes)), out).
Proof.
  intros Hdist Hasc Hlen. rewrite dft_unfold.
  destruct (check_loop times (length times) 0 false true) as [d s] eqn:Hloop.
  apply check_loop_spec in Hloop as (Hd & Hs & _).
  apply Hd in Hdist as ->. apply Hs in Hasc as ->. cbn [negb].
  by destruct (Nat.eqb_spec (length fluxes) (length times)).
Qed.

Lemma dft_returns (times fluxes freqs : DoubleVec) (out : ComplexVec) :
  distinct_values times -> ascending times -> length fluxes = length times ->
  dft pi cexp times fluxes freqs out = (Ok tt, dft_at pi cexp times fluxes <$> freqs).
Proof.
  intros Hdist Hasc Hlen. rewrite dft_unfold.
  destruct (check_loop times (length times) 0 false true) as [d s] eqn:Hloop.
  apply check_loop_spec in Hloop as (Hd & Hs & _).
  apply Hd in Hdist as ->. apply Hs in Hasc as ->. cbn [negb].
  rewrite Hlen, Nat.eqb_refl. cbn [negb]. f_equal.
  rewrite foldl_per_freq by done.
  rewrite Nat.sub_diag, app_nil_r. apply map_by_index.
Qed.

End Summation.

End DftSum.

(** ** [dft]: the contract *)

Module DftProofs.
Import Series Thrown Spectrum OutM DftEngine DftValidation DftSum.

(** Decides [adjacent]-quantified goals on a concrete series. *)
Ltac concrete_adjacent :=
  let i := fresh "i" in let Hx := fresh "Hx" in let Hy := fresh "Hy" in
  intros ? ? (i & Hx & Hy);
  repeat (destruct i as [|i]; cbn in Hx, Hy;
          [simplify_eq; by vm_compute|]; try discriminate).

(** Decides membership in a concrete series. *)
Ltac concrete_elem := apply list_elem_of_In; simpl; tauto.

(** C1.  When [times] is ascending with at least two distinct values and
    [fluxes] has the length of [times], [dft] returns, with a spectrum that
    has one entry per frequency, the entry at index [i] being the sum, in
    input order, of [fluxes[j] * exp(-i * 2 pi * freqs[i] * times[j])] over
    all samples [j]. *)
Theorem dft_spectrum (pi : double) (cexp : Complex -> Complex)
    (times fluxes freqs : DoubleVec) (out : ComplexVec) :
  ascending times -> distinct_values times -> length fluxes = length times ->
  exists spectrum : ComplexVec,
    dft pi cexp times fluxes freqs out = (Ok tt, spectrum) /\
    length spectrum = length freqs /\
    forall i f, freqs !! i = Some f ->
      spectrum !! i = Some (Csum (zip_with (dft_term pi cexp f) times fluxes)).
Proof.
  intros Hasc Hdist Hlen. exists (dft_at pi cexp times fluxes <$> freqs).
  split; [by apply dft_returns|]. split; [by rewrite length_fmap|].
  intros i f Hf. by rewrite list_lookup_fmap, Hf.
Qed.

(** The theorem at times 0, 1, fluxes 1, 1 and the single frequency 1. *)
Lemma dft_spectrum_witness :
  exists spectrum : ComplexVec,
    dft pi_approx cexp_order1 [dz 0; dz 1] [dz 1; dz 1] [dz 1] [] = (Ok tt, spectrum) /\
    length spectrum = length [dz 1] /\
    forall i f, [dz 1] !! i = Some f ->
      spectrum !! i
      = Some (Csum (zip_with (dft_term pi_approx cexp_order1 f)
                             [dz 0; dz 1] [dz 1; dz 1])).
Proof.
  apply (dft_spectrum pi_approx cexp_order1 [dz 0; dz 1] [dz 1; dz 1] [dz 1] []).
  - concrete_adjacent.
  - exists (dz 0), (dz 1). repeat split; [concrete_elem..|by vm_compute].
  - reflexivity.
Defined.

(** C2.  The checks of [dft] in their order: a series without two distinct
    values gives [BadLightCurve], whatever its order and the length of
    [fluxes]; otherwise a series that is not ascending gives [NotSorted],
    whatever the length of [fluxes]; otherwise a length of [fluxes] that
    differs from that of [times] gives [std::invalid_argument] with a
    message that contains both lengths in decimal. *)
Theorem dft_check_order (pi : double) (cexp : Complex -> Complex)
    (times fluxes freqs : DoubleVec) (out : ComplexVec) :
  (¬ distinct_values times ->
     (dft pi cexp times fluxes freqs out).1 = Throw dft_degenerate) /\
  (distinct_values times -> ¬ ascending times ->
     (dft pi cexp times fluxes freqs out).1 = Throw dft_unsorted) /\
  (distinct_values times -> ascending times -> length fluxes ≠ length times ->
     (dft pi cexp times fluxes freqs out).1
     = Throw (dft_mismatch (length times) (length fluxes))).
Proof.
  split; [|split].
  - intros Hnd. by rewrite dft_throws_degenerate.
  - intros Hd Hna. by rewrite dft_throws_unsorted.
  - intros Hd Ha Hlen. by rewrite dft_throws_mismatch.
Qed.

(** The theorem at three times and two fluxes: the message names 3 and 2. *)
Lemma dft_check_order_witness :
  (dft pi_approx cexp_order1 [dz 0; dz 1; dz 2] [dz 1; dz 1] [dz 1] []).1
  = Throw (invalid_argument
      "Arguments 'times' and 'fluxes' to dft() are not the same length (gave 3 for times and 2 for fluxes)").
Proof.
  apply (dft_check_order pi_approx cexp_order1 [dz 0; dz 1; dz 2] [dz 1; dz 1] [dz 1] []).
  - exists (dz 0), (dz 1). repeat split; [concrete_elem..|by vm_compute].
  - concrete_adjacent.
  - simpl. lia.
Defined.

(** C3.  A negative frequency is not rejected: with valid [times] and
    [fluxes] and the single frequency -1, [dft] returns a spectrum, for
    every [pi], every exponential and every previous output. *)
Theorem dft_negative_frequency_returns (pi : double) (cexp : Complex -> Complex)
    (out : ComplexVec) :
  dz (-1) < 0 /\
  dft pi cexp [dz 0; dz 1] [dz 1; dz 1] [dz (-1)] out
  = (Ok tt, [dft_at pi cexp [dz 0; dz 1] [dz 1; dz 1] (dz (-1))]).
Proof.
  split; [by vm_compute|]. apply dft_returns.
  - exists (dz 0), (dz 1). repeat split; [concrete_elem..|by vm_compute].
  - concrete_adjacent.
  - reflexivity.
Qed.

(** C4.  When [dft] throws, the output argument is what it was before the
    call; when it returns, the output is the freshly built spectrum, which
    does not depend on what the output argument held. *)
Theorem dft_exception_safe (pi : double) (cexp : Complex -> Complex)
    (times fluxes freqs : DoubleVec) (out : ComplexVec) :
  (forall e, (dft pi cexp times fluxes freqs out).1 = Throw e ->
     (dft pi cexp times fluxes freqs out).2 = out) /\
  (forall out', (dft pi cexp times fluxes freqs out).1 = Ok tt ->
     (dft pi cexp times fluxes freqs out).2 = (dft pi cexp times fluxes freqs out').2).
Proof.
  rewrite !dft_unfold. split; [intros e | intros out'; rewrite dft_unfold].
  all: destruct (check_loop times (length times) 0 false true) as [[] []];
    cbn [negb fst snd]; try done.
  all: by destruct (length fluxes =? length times)%nat.
Qed.

(** The theorem at a descending series and a non-empty previous output. *)
Lemma dft_exception_safe_witness :
  (dft pi_approx cexp_order1 [dz 1; dz 0] [dz 1; dz 1] [dz 1] [imagI]).2 = [imagI].
Proof.
  apply (dft_exception_safe pi_approx cexp_order1 [dz 1; dz 0] [dz 1; dz 1] [dz 1] [imagI])
    with (e := dft_unsorted).
  reflexivity.
Defined.

(** C10.  The order test of [dft] is not strict.  For an ascending series,
    repetitions allowed, with two distinct values and as many fluxes, [dft]
    returns, and each entry of the spectrum is the sum of one term per
    sample, the term at position [j] being that of [times[j]] and
    [fluxes[j]].  [NotSorted] is thrown exactly when the series has two
    distinct values and some entry is strictly smaller than its
    predecessor. *)
Theorem dft_order_test_not_strict (pi : double) (cexp : Complex -> Complex)
    (times fluxes freqs : DoubleVec) (out : ComplexVec) :
  (ascending times -> distinct_values times -> length fluxes = length times ->
   exists spectrum : ComplexVec,
     dft pi cexp times fluxes freqs out = (Ok tt, spectrum) /\
     forall i f, freqs !! i = Some f ->
       exists terms : list Complex,
         spectrum !! i = Some (Csum terms) /\
         length terms = length times /\
         forall j t x, times !! j = Some t -> fluxes !! j = Some x ->
           terms !! j = Some (dft_term pi cexp f t x)) /\
  ((exists what, (dft pi cexp times fluxes freqs out).1 = Throw (NotSorted what)) <->
   distinct_values times /\ exists x y, adjacent times x y /\ y < x).
Proof.
  split.
  - intros Hasc Hdist Hlen. exists (dft_at pi cexp times fluxes <$> freqs).
    split; [by apply dft_returns|]. intros i f Hf.
    exists (zip_with (dft_term pi cexp f) times fluxes).
    split; [by rewrite list_lookup_fmap, Hf|].
    split; [rewrite length_zip_with; lia|].
    intros j t x Ht Hx. by rewrite lookup_zip_with, Ht, Hx.
  - split.
    + intros [what Hthrow]. rewrite dft_unfold in Hthrow.
      destruct (check_loop times (length times) 0 false true) as [d s] eqn:Hloop.
      apply check_loop_spec in Hloop as (Hd & _ & Hs).
      destruct d, s; cbn [negb fst] in Hthrow; try done.
      * by destruct (length fluxes =? length times)%nat.
      * split; [by apply Hd|by apply Hs].
    + intros [Hdist Hinv]. exists "Argument 'times' to dft() is not sorted in ascending order".
      rewrite dft_throws_unsorted; [done..|]. by apply inversion_not_ascending.
Qed.

(** The theorem at the series 0, 1, 1, 2, which repeats a time stamp. *)
Lemma dft_order_test_not_strict_witness :
  exists spectrum : ComplexVec,
    dft pi_approx cexp_order1 [dz 0; dz 1; dz 1; dz 2] [dz 1; dz 2; dz 3; dz 4]
        [dz 1] [] = (Ok tt, spectrum) /\
    forall i f, [dz 1] !! i = Some f ->
      exists terms : list Complex,
        spectrum !! i = Some (Csum terms) /\
        length terms = length [dz 0; dz 1; dz 1; dz 2] /\
        forall j t x,
          [dz 0; dz 1; dz 1; dz 2] !! j = Some t ->
          [dz 1; dz 2; dz 3; dz 4] !! j = Some x ->
          terms !! j = Some (dft_term pi_approx cexp_order1 f t x).
Proof.
  apply (dft_order_test_not_strict pi_approx cexp_order1
           [dz 0; dz 1; dz 1; dz 2] [dz 1; dz 2; dz 3; dz 4] [dz 1] []).
  - concrete_adjacent.
  - exists (dz 0), (dz 1). repeat split; [concrete_elem..|by vm_compute].
  - reflexivity.
Defined.

End DftProofs.

(** ** Further properties of the grid characterisation *)

Module GridFacts.
Import GridCharacterizer Series Thrown SeriesFacts DeltaTProofs MaxFreqProofs.

Lemma double_of_size_pos (n : nat) : (0 < n)%nat -> 0 < double_of_size n.
Proof.
  intros Hn. unfold double_of_size, Qclt. cbn [this Q2Qc].
  rewrite !Qred_correct. unfold Qlt. simpl. lia.
Qed.

Lemma half_pos : 0 < half.
Proof. by vm_compute. Qed.

Lemma Qcdiv_pos (x y : double) : 0 < x -> 0 < y -> 0 < x / y.
Proof. intros Hx Hy. apply Qcmult_pos_pos; [done|by apply Qcinv_pos]. Qed.

Lemma Qcinv_antitone (x y : double) : 0 < x -> x ≤ y -> / y ≤ / x.
Proof.
  intros Hx Hxy.
  assert (0 < y) as Hy by (by apply Qclt_le_trans with x).
  apply (Qcmult_le_mono_pos_r _ _ (x * y)); [by apply Qcmult_pos_pos|].
  replace (/ y * (x * y)) with x.
  - replace (/ x * (x * y)) with y; [done|].
    field. intros ->. by apply Qc_lt_irrefl in Hx.
  - field. intros ->. by apply Qc_lt_irrefl in Hy.
Qed.

Lemma Qcminus_le_compat (a b c d : double) : a ≤ b -> c ≤ d -> a - d ≤ b - c.
Proof.
  intros Hab Hcd. apply Qcplus_le_compat; [done|by apply Qcopp_le_compat].
Qed.

Lemma two_distinct_length (l : DoubleVec) (x y : double) :
  x ∈ l -> y ∈ l -> x ≠ y -> (2 <= length l)%nat.
Proof.
  destruct l as [|a [|b l]]; intros Hx Hy Hne.
  - inversion Hx.
  - apply list_elem_of_singleton in Hx, Hy. congruence.
  - simpl. lia.
Qed.

(** A value returned by [deltaT] is the difference of the greatest and the
    least element, the series has at least two elements, and the difference
    is positive. *)
Lemma deltaT_Ok_inv (times : DoubleVec) (d : double) :
  deltaT times = Ok d ->
  (2 <= length times)%nat /\
  exists tMin tMax, is_min tMin times /\ is_max tMax times /\
    0 < tMax - tMin /\ d = tMax - tMin.
Proof.
  intros Hok. destruct (decide (length times < 2)%nat) as [Hlt|Hge].
  - unfold deltaT in Hok.
    by destruct (Nat.ltb_spec (length times) 2) as [_|]; [|lia].
  - assert (times ≠ []) as Hne by (intros ->; simpl in Hge; lia).
    destruct (min_max_exist times Hne) as (m & M & Hm & HM).
    rewrite (deltaT_unfold times m M) in Hok by (done || lia).
    case_bool_decide; [|done]. simplify_eq.
    split; [lia|]. by exists m, M.
Qed.

(** What a returned value of [maxFreq] is made of. *)
Lemma maxFreq_Ok_inv (times : DoubleVec) (f : double) :
  maxFreq times = Ok f ->
  (2 <= length times)%nat /\
  exists g, adjacent_gap times g /\ 0 < g /\ f = half / g.
Proof.
  unfold maxFreq. destruct (Nat.ltb_spec (length times) 2) as [|Hlen]; [done|].
  destruct (isSorted times); [|done]. cbn [negb].
  destruct times as [|t0 rest]; [simpl in Hlen; lia|]. cbn [hd tl].
  destruct (gap_loop_spec rest t0 0 (Qcle_refl 0)) as (I1 & _ & _).
  cbn zeta in I1. unfold Deq. case_bool_decide as Hz; [done|].
  intros [= <-]. split; [done|].
  destruct I1 as [|[Hgap Hpos]]; [done|]. by eexists.
Qed.

(** X1.  A span returned by [deltaT] is strictly positive. *)
Theorem deltaT_positive (times : DoubleVec) (d : double) :
  deltaT times = Ok d -> 0 < d.
Proof. by intros (_ & m & M & _ & _ & Hpos & ->)%deltaT_Ok_inv. Qed.

Lemma deltaT_positive_witness : 0 < dz 2.
Proof. apply (deltaT_positive [dz 3; dz 1; dz 2]). reflexivity. Defined.

(** X2.  A value returned by [pseudoNyquistFreq] is never negative: a
    non-negative numerator is divided by a positive span. *)
Theorem pseudoNyquistFreq_nonnegative (times : DoubleVec) (f : double) :
  pseudoNyquistFreq times = Ok f -> 0 ≤ f.
Proof.
  unfold pseudoNyquistFreq. destruct (deltaT times) as [d|] eqn:Hd; [|done].
  intros [= <-]. apply deltaT_Ok_inv in Hd as (Hlen & m & M & _ & _ & Hpos & ->).
  apply Qclt_le_weak, Qcdiv_pos; [|done].
  apply Qcmult_pos_pos; [apply half_pos|apply double_of_size_pos; lia].
Qed.

Lemma pseudoNyquistFreq_nonnegative_witness : 0 ≤ Q2Qc (1 # 4).
Proof. apply (pseudoNyquistFreq_nonnegative [dz 5; dz 1]). reflexivity. Defined.

(** X3.  A frequency returned by [maxFreq] is never negative, whatever the
    order test: 0.5 is divided by a strictly positive gap. *)
Theorem maxFreq_nonnegative (sorted : DoubleVec -> bool) (times : DoubleVec)
    (f : double) :
  maxFreq_with sorted times = Ok f -> 0 ≤ f.
Proof.
  unfold maxFreq_with. destruct (Nat.ltb_spec (length times) 2) as [|Hlen]; [done|].
  destruct (sorted times); [|done]. cbn [negb].
  destruct times as [|t0 rest]; [simpl in Hlen; lia|]. cbn [hd tl].
  destruct (gap_loop_spec rest t0 0 (Qcle_refl 0)) as (I1 & _ & _).
  cbn zeta in I1. unfold Deq. case_bool_decide as Hz; [done|].
  intros [= <-]. destruct I1 as [|[_ Hpos]]; [done|].
  apply Qclt_le_weak, Qcdiv_pos; [apply half_pos|done].
Qed.

Lemma maxFreq_nonnegative_witness : 0 ≤ half.
Proof.
  apply (maxFreq_nonnegative isSorted [dz 0; dz 1; dz 1; dz 3]). reflexivity.
Defined.

(** X4.  [deltaT] and [pseudoNyquistFreq] do not depend on the order of the
    series: two series that are permutations of each other give the same
    value or the same exception. *)
Theorem span_permutation (times times' : DoubleVec) :
  times ≡ₚ times' ->
  deltaT times = deltaT times' /\
  pseudoNyquistFreq times = pseudoNyquistFreq times'.
Proof.
  intros Hperm. pose proof (Permutation_length Hperm) as Hlen.
  assert (deltaT times = deltaT times') as HdT.
  { destruct (decide (length times < 2)%nat) as [Hlt|Hge].
    - unfold deltaT. rewrite <- Hlen.
      by destruct (Nat.ltb_spec (length times) 2) as [_|]; [|lia].
    - assert (times ≠ []) as Hne by (intros ->; simpl in Hge; lia).
      destruct (min_max_exist times Hne) as (m & M & Hm & HM).
      rewrite (deltaT_unfold times m M) by (done || lia).
      rewrite (deltaT_unfold times' m M); [done|lia| |].
      + destruct Hm as [Hin Hle]. split; [by rewrite <- Hperm|].
        intros x Hx. apply Hle. by rewrite Hperm.
      + destruct HM as [Hin Hle]. split; [by rewrite <- Hperm|].
        intros x Hx. apply Hle. by rewrite Hperm. }
  split; [done|]. unfold pseudoNyquistFreq. by rewrite HdT, Hlen.
Qed.

Lemma span_permutation_witness :
  deltaT [dz 3; dz 1; dz 2] = deltaT [dz 1; dz 2; dz 3] /\
  pseudoNyquistFreq [dz 3; dz 1; dz 2] = pseudoNyquistFreq [dz 1; dz 2; dz 3].
Proof.
  apply (span_permutation [dz 3; dz 1; dz 2] [dz 1; dz 2; dz 3]).
  apply (Permutation_cons_append [dz 1; dz 2] (dz 3)).
Defined.

(** In an ascending series the first element is the least and the last
    element is the greatest. *)
Lemma ascending_tail (a b : double) (l : DoubleVec) :
  ascending (a :: b :: l) -> a ≤ b /\ ascending (b :: l).
Proof.
  intros Hasc. split.
  - apply Hasc, adjacent_cons. by left.
  - intros x y Hadj. apply Hasc, adjacent_cons. by right.
Qed.

Lemma ascending_first_least (l : DoubleVec) : forall a,
  ascending (a :: l) -> forall x, x ∈ a :: l -> a ≤ x.
Proof.
  induction l as [|b l IH]; intros a Hasc x Hx.
  - apply list_elem_of_singleton in Hx as ->. apply Qcle_refl.
  - apply ascending_tail in Hasc as [Hab Hasc].
    apply elem_of_cons in Hx as [->|Hx]; [apply Qcle_refl|].
    apply Qcle_trans with b; [done|by apply IH].
Qed.

Lemma ascending_last_greatest (l : DoubleVec) : forall b,
  ascending l -> last l = Some b -> forall x, x ∈ l -> x ≤ b.
Proof.
  induction l as [|a l IH]; intros b Hasc Hlast x Hx; [inversion Hx|].
  destruct l as [|a' l].
  - simpl in Hlast. simplify_eq. apply list_elem_of_singleton in Hx as ->.
    apply Qcle_refl.
  - pose proof (ascending_tail _ _ _ Hasc) as [Haa' Hasc'].
    change (last (a :: a' :: l)) with (last (a' :: l)) in Hlast.
    apply elem_of_cons in Hx as [->|Hx]; [|by apply IH].
    apply Qcle_trans with a'; [done|].
    apply IH; [done..|]. apply elem_of_cons. by left.
Qed.

(** X5.  On an ascending series of at least two times, [deltaT] is the last
    element minus the first when the last exceeds the first, and throws
    [BadLightCurve] otherwise. *)
Theorem deltaT_ascending (times : DoubleVec) (first lst : double) :
  ascending times -> (2 <= length times)%nat ->
  head times = Some first -> last times = Some lst ->
  deltaT times =
    if bool_decide (first < lst) then Ok (lst - first) else Throw deltaT_degenerate.
Proof.
  intros Hasc Hlen Hhead Hlast.
  rewrite (deltaT_unfold times first lst Hlen).
  - by rewrite (bool_decide_ext _ _ (Qc_sub_pos first lst)).
  - destruct times as [|t0 rest]; simplify_eq/=.
    split; [apply elem_of_cons; by left|]. by apply ascending_first_least.
  - split; [by apply last_Some_elem_of|]. by apply ascending_last_greatest.
Qed.

Lemma deltaT_ascending_witness :
  deltaT [dz 0; dz 1; dz 1; dz 3] = Ok (dz 3 - dz 0).
Proof.
  apply (deltaT_ascending [dz 0; dz 1; dz 1; dz 3] (dz 0) (dz 3)).
  - apply isSorted_spec. reflexivity.
  - simpl. lia.
  - reflexivity.
  - reflexivity.
Defined.

(** X6.  Observations can only widen the span: if [deltaT] returns [d] for
    a series and every time of that series also occurs in a second series,
    [deltaT] returns for the second series too, with a value not below [d]. *)
Theorem deltaT_monotone (times times' : DoubleVec) (d : double) :
  (forall x, x ∈ times -> x ∈ times') ->
  deltaT times = Ok d ->
  exists d', deltaT times' = Ok d' /\ d ≤ d'.
Proof.
  intros Hsub (Hlen & m & M & [Hm _] & [HM _] & Hpos & ->)%deltaT_Ok_inv.
  assert (m ≠ M) as Hne.
  { intros ->. apply Qc_sub_pos_1 in Hpos. by apply Qc_lt_irrefl in Hpos. }
  pose proof (two_distinct_length times' m M (Hsub _ Hm) (Hsub _ HM) Hne) as Hlen'.
  assert (times' ≠ []) as Hne' by (intros ->; simpl in Hlen'; lia).
  destruct (min_max_exist times' Hne') as (m' & M' & [Hm' Hmin'] & [HM' Hmax']).
  assert (M - m ≤ M' - m') as Hle
    by (apply Qcminus_le_compat; [apply Hmax'|apply Hmin']; auto).
  exists (M' - m'). split; [|done].
  rewrite (deltaT_unfold times' m' M') by done.
  rewrite bool_decide_true; [done|]. by apply Qclt_le_trans with (M - m).
Qed.

Lemma deltaT_monotone_witness :
  exists d', deltaT [dz 7; dz 3; dz 1; dz 2] = Ok d' /\ dz 2 ≤ d'.
Proof.
  apply (deltaT_monotone [dz 3; dz 1; dz 2] [dz 7; dz 3; dz 1; dz 2] (dz 2)).
  - intros x Hx. apply elem_of_cons. by right.
  - reflexivity.
Defined.

(** X7.  [deltaT] does not depend on the origin of time: adding the same
    offset to every time changes neither the value nor the exception. *)
Theorem deltaT_shift (times : DoubleVec) (c : double) :
  deltaT ((fun t => t + c) <$> times) = deltaT times.
Proof.
  destruct (decide (length times < 2)%nat) as [Hlt|Hge].
  - unfold deltaT. rewrite length_fmap.
    by destruct (Nat.ltb_spec (length times) 2) as [_|]; [|lia].
  - assert (times ≠ []) as Hne by (intros ->; simpl in Hge; lia).
    destruct (min_max_exist times Hne) as (m & M & [Hm Hmin] & [HM Hmax]).
    rewrite (deltaT_unfold times m M) by (done || lia).
    rewrite (deltaT_unfold _ (m + c) (M + c)).
    + by replace (M + c - (m + c)) with (M - m) by ring.
    + rewrite length_fmap. lia.
    + split; [by apply (list_elem_of_fmap_2 (fun t => t + c))|].
      intros x (y & -> & Hy)%list_elem_of_fmap.
      apply Qcplus_le_mono_r. by apply Hmin.
    + split; [by apply (list_elem_of_fmap_2 (fun t => t + c))|].
      intros x (y & -> & Hy)%list_elem_of_fmap.
      apply Qcplus_le_mono_r. by apply Hmax.
Qed.



(** X9.  Whenever [maxFreq] returns, [deltaT] and [pseudoNyquistFreq] return
    as well, and the frequency of [maxFreq] is at least [0.5 / deltaT]: the
    least positive gap between neighbours cannot exceed the span. *)
Theorem maxFreq_at_least_half_over_span (times : DoubleVec) (f : double) :
  maxFreq times = Ok f ->
  exists d, deltaT times = Ok d /\ half / d ≤ f /\
    pseudoNyquistFreq times = Ok (half * double_of_size (length times) / d).
Proof.
  intros (Hlen & g & (x & y & (i & Hx & Hy) & ->) & Hpos & ->)%maxFreq_Ok_inv.
  assert (times ≠ []) as Hne by (intros ->; simpl in Hlen; lia).
  destruct (min_max_exist times Hne) as (m & M & [Hm Hmin] & [HM Hmax]).
  apply list_elem_of_lookup_2 in Hx, Hy.
  assert (y - x ≤ M - m) as Hle by (apply Qcminus_le_compat; auto).
  assert (deltaT times = Ok (M - m)) as HdT.
  { rewrite (deltaT_unfold times m M) by done.
    rewrite bool_decide_true; [done|]. by apply Qclt_le_trans with (y - x). }
  exists (M - m). split; [done|]. split.
  - apply Qcmult_le_mono_nonneg_l; [apply Qclt_le_weak, half_pos|].
    by apply Qcinv_antitone.
  - unfold pseudoNyquistFreq. by rewrite HdT.
Qed.

Lemma maxFreq_at_least_half_over_span_witness :
  exists d, deltaT [dz 0; dz 1; dz 1; dz 3] = Ok d /\ half / d ≤ half /\
    pseudoNyquistFreq [dz 0; dz 1; dz 1; dz 3]
    = Ok (half * double_of_size (length [dz 0; dz 1; dz 1; dz 3]) / d).
Proof.
  apply (maxFreq_at_least_half_over_span [dz 0; dz 1; dz 1; dz 3] half).
  reflexivity.
Defined.

(** Shifting every time by the same offset changes neither the order test
    nor the gaps seen by the loop of [maxFreq]. *)
Lemma isSorted_shift (c : double) (l : DoubleVec) :
  isSorted ((fun t => t + c) <$> l) = isSorted l.
Proof.
  induction l as [|a l IH]; [done|]. destruct l as [|b l]; [done|].
  change (isSorted ((fun t => t + c) <$> a :: b :: l))
    with (if (b + c <? a + c)%dbl then false
          else isSorted ((fun t => t + c) <$> b :: l)).
  change (isSorted (a :: b :: l))
    with (if (b <? a)%dbl then false else isSorted (b :: l)).
  rewrite IH. unfold Dlt.
  by rewrite <- (bool_decide_ext _ _ (Qcplus_lt_mono_r b a c)).
Qed.

Lemma gap_loop_shift (c : double) (rest : DoubleVec) : forall t1 minDeltaT,
  gap_loop (t1 + c) ((fun t => t + c) <$> rest) minDeltaT
  = gap_loop t1 rest minDeltaT.
Proof.
  induction rest as [|t2 rest IH]; intros t1 minDeltaT; [done|].
  cbn [fmap list_fmap gap_loop]. rewrite IH. f_equal.
  replace (t2 + c - (t1 + c)) with (t2 - t1) by ring. unfold Dgt.
  by rewrite <- (bool_decide_ext _ _ (Qcplus_lt_mono_r t1 t2 c)).
Qed.

(** X15.  [maxFreq] does not depend on the origin of time: adding the same
    offset to every time changes neither the value nor the exception. *)
Theorem maxFreq_shift (times : DoubleVec) (c : double) :
  maxFreq ((fun t => t + c) <$> times) = maxFreq times.
Proof.
  unfold maxFreq. rewrite length_fmap, isSorted_shift.
  destruct (Nat.ltb_spec (length times) 2) as [|Hlen]; [done|].
  destruct times as [|t0 rest]; [simpl in Hlen; lia|].
  cbn [fmap list_fmap hd tl]. by rewrite gap_loop_shift.
Qed.

End GridFacts.

(** ** Further properties of [dft] *)

Module DftFacts.
Import GridCharacterizer Series Thrown Spectrum SeriesFacts OutM DftEngine.
Import DftValidation DftSum MaxFreqProofs GridFacts.

Lemma inversion_distinct (times : DoubleVec) :
  (exists x y, adjacent times x y /\ y < x) -> distinct_values times.
Proof.
  intros (x & y & (i & Hx & Hy) & Hlt). exists x, y.
  apply list_elem_of_lookup_2 in Hx, Hy. repeat split; [done..|].
  intros ->. by apply Qc_lt_irrefl in Hlt.
Qed.

Lemma short_not_distinct (times : DoubleVec) :
  (length times < 2)%nat -> ¬ distinct_values times.
Proof.
  intros Hlen (x & y & Hx & Hy & Hne).
  pose proof (two_distinct_length times x y Hx Hy Hne). lia.
Qed.

Section Outcomes.

Variable pi : double.
Variable cexp : Complex -> Complex.

(** The outcomes of [dft], each with the property of the arguments that
    selects it. *)
Lemma dft_cases (times fluxes freqs : DoubleVec) (out : ComplexVec) :
  (¬ distinct_values times /\
   dft pi cexp times fluxes freqs out = (Throw dft_degenerate, out)) \/
  (distinct_values times /\ (exists x y, adjacent times x y /\ y < x) /\
   dft pi cexp times fluxes freqs out = (Throw dft_unsorted, out)) \/
  (distinct_values times /\ ascending times /\ length fluxes ≠ length times /\
   dft pi cexp times fluxes freqs out
   = (Throw (dft_mismatch (length times) (length fluxes)), out)) \/
  (distinct_values times /\ ascending times /\ length fluxes = length times /\
   dft pi cexp times fluxes freqs out
   = (Ok tt, dft_at pi cexp times fluxes <$> freqs)).
Proof.
  destruct (check_loop times (length times) 0 false true) as [d s] eqn:Hloop.
  apply check_loop_spec in Hloop as (Hd & Hs & Hs').
  destruct d.
  - assert (distinct_values times) as Hdist by (by apply Hd). right.
    destruct s.
    + assert (ascending times) as Hasc by (by apply Hs). right.
      destruct (decide (length fluxes = length times)) as [Hlen|Hlen].
      * right. repeat split; [done..|]. by apply dft_returns.
      * left. repeat split; [done..|]. by apply dft_throws_mismatch.
    + assert (exists x y, adjacent times x y /\ y < x) as Hinv by (by apply Hs').
      left. repeat split; [done..|].
      apply dft_throws_unsorted; [done|]. by apply inversion_not_ascending.
  - assert (¬ distinct_values times) as Hnd by (by intros ?%Hd).
    left. split; [done|]. by apply dft_throws_degenerate.
Qed.

(** X10.  [dft] returns exactly when its three documented preconditions on
    [times] and [fluxes] hold. *)
Theorem dft_returns_iff (times fluxes freqs : DoubleVec) (out : ComplexVec) :
  (dft pi cexp times fluxes freqs out).1 = Ok tt <->
  distinct_values times /\ ascending times /\ length fluxes = length times.
Proof.
  split.
  - intros Hok.
    destruct (dft_cases times fluxes freqs out)
      as [[_ H]|[(_ & _ & H)|[(_ & _ & _ & H)|(Hd & Ha & Hl & _)]]];
      [by rewrite H in Hok..|done].
  - intros (Hd & Ha & Hl). by rewrite dft_returns.
Qed.

(** X11.  [dft] throws nothing but the three exceptions of its checks; in
    particular it never throws [NegativeFreq], whatever the frequencies. *)
Theorem dft_exceptions (times fluxes freqs : DoubleVec) (out : ComplexVec)
    (e : exception) :
  (dft pi cexp times fluxes freqs out).1 = Throw e ->
  (e = dft_degenerate \/ e = dft_unsorted \/
   e = dft_mismatch (length times) (length fluxes)) /\
  forall what, e ≠ NegativeFreq what.
Proof.
  intros Hthrow.
  destruct (dft_cases times fluxes freqs out)
    as [[_ H]|[(_ & _ & H)|[(_ & _ & _ & H)|(_ & _ & _ & H)]]];
    rewrite H in Hthrow; cbn [fst] in Hthrow; simplify_eq; split; auto.
Qed.

(** X12.  Frequencies are handled independently of each other.  Whether
    [dft] throws, and what, depends neither on the frequencies nor on the
    previous output; and when it returns, the spectrum for two grids put
    end to end is the spectrum of the first followed by that of the second. *)
Theorem dft_frequency_grids (times fluxes freqs1 freqs2 : DoubleVec)
    (out out1 out2 : ComplexVec) :
  (dft pi cexp times fluxes (freqs1 ++ freqs2) out).1
  = (dft pi cexp times fluxes freqs1 out1).1 /\
  ((dft pi cexp times fluxes (freqs1 ++ freqs2) out).1 = Ok tt ->
   (dft pi cexp times fluxes (freqs1 ++ freqs2) out).2
   = (dft pi cexp times fluxes freqs1 out1).2
       ++ (dft pi cexp times fluxes freqs2 out2).2).
Proof.
  destruct (dft_cases times fluxes (freqs1 ++ freqs2) out)
    as [[Hnd H]|[(Hd & Hinv & H)|[(Hd & Ha & Hl & H)|(Hd & Ha & Hl & H)]]];
    rewrite H; cbn [fst snd].
  - by rewrite dft_throws_degenerate.
  - rewrite dft_throws_unsorted; [done..|]. by apply inversion_not_ascending.
  - by rewrite dft_throws_mismatch.
  - rewrite !dft_returns by done. cbn [fst snd]. by rewrite fmap_app.
Qed.

(** X13.  A series of fewer than two times, the empty one included, makes
    [dft] throw [BadLightCurve], whatever the fluxes and frequencies; the
    output is left as it was. *)
Theorem dft_short_series (times fluxes freqs : DoubleVec) (out : ComplexVec) :
  (length times < 2)%nat ->
  dft pi cexp times fluxes freqs out = (Throw dft_degenerate, out).
Proof.
  intros Hlen. apply dft_throws_degenerate. by apply short_not_distinct.
Qed.

(** X14.  [dft] and [maxFreq] accept and reject alike on a series of at
    least two times, no two neighbours equal, with as many fluxes: both
    return, or both throw [NotSorted].  This holds for every order test that
    accepts the strictly ascending series and refuses the series with an
    inversion, hence for both readings of [isSorted]. *)
Theorem dft_maxFreq_agree (sorted : DoubleVec -> bool)
    (times fluxes freqs : DoubleVec) (out : ComplexVec) :
  (forall l, (forall x y, adjacent l x y -> x < y) -> sorted l = true) ->
  (forall l, (exists x y, adjacent l x y /\ y < x) -> sorted l = false) ->
  (2 <= length times)%nat -> length fluxes = length times ->
  (forall x y, adjacent times x y -> x ≠ y) ->
  ((exists f, maxFreq_with sorted times = Ok f) /\
   (dft pi cexp times fluxes freqs out).1 = Ok tt) \/
  (maxFreq_with sorted times = Throw maxFreq_unsorted /\
   (dft pi cexp times fluxes freqs out).1 = Throw dft_unsorted).
Proof.
  intros Haccept Hrefuse Hlen Hfl Hneq. unfold maxFreq_with.
  destruct (Nat.ltb_spec (length times) 2) as [|_]; [lia|].
  destruct (isSorted times) eqn:Hsorted.
  - left. apply isSorted_spec in Hsorted.
    assert (forall x y, adjacent times x y -> x < y) as Hstrict.
    { intros x y Hadj. destruct (Qc_le_lt_or_eq x y) as [|Heq]; [by apply Hsorted|done|].
      by apply Hneq in Hadj. }
    rewrite (Haccept times Hstrict). cbn [negb].
    destruct times as [|t0 [|t1 rest]]; [simpl in Hlen; lia..|]. cbn [hd tl].
    assert (adjacent (t0 :: t1 :: rest) t0 t1) as Hadj by (by exists 0%nat).
    pose proof (Hstrict _ _ Hadj) as Hlt. split.
    + destruct (gap_loop_spec (t1 :: rest) t0 0 (Qcle_refl 0)) as (_ & _ & I3).
      cbn zeta in I3. destruct (I3 (t1 - t0)) as [Hr _].
      { by exists t0, t1. }
      { by apply Qc_sub_pos_2. }
      unfold Deq. case_bool_decide as Hz; [|by eexists].
      rewrite Hz in Hr. by apply Qc_lt_irrefl in Hr.
    + rewrite dft_returns; [done| |done..].
      exists t0, t1. repeat split; [apply elem_of_cons; by left| |by apply Hneq].
      apply elem_of_cons; right. apply elem_of_cons; by left.
  - right. apply isSorted_false in Hsorted as Hinv.
    rewrite (Hrefuse times Hinv). cbn [negb]. split; [done|].
    rewrite dft_throws_unsorted; [done| |].
    + by apply inversion_distinct.
    + by apply inversion_not_ascending.
Qed.

End Outcomes.

(** The theorems at concrete calls. *)
Lemma dft_returns_iff_witness :
  (dft pi_approx cexp_order1 [dz 0; dz 1] [dz 1; dz 1] [dz 1] []).1 = Ok tt.
Proof.
  apply (dft_returns_iff pi_approx cexp_order1 [dz 0; dz 1] [dz 1; dz 1] [dz 1] []).
  split; [|split; [|reflexivity]].
  - exists (dz 0), (dz 1).
    repeat split; [apply list_elem_of_In; simpl; tauto..|by vm_compute].
  - apply isSorted_spec. reflexivity.
Defined.

Lemma dft_exceptions_witness :
  (dft_unsorted = dft_degenerate \/ dft_unsorted = dft_unsorted \/
   dft_unsorted = dft_mismatch 2 2) /\
  forall what, dft_unsorted ≠ NegativeFreq what.
Proof.
  apply (dft_exceptions pi_approx cexp_order1 [dz 1; dz 0] [dz 1; dz 1] [dz (-1)] []).
  reflexivity.
Defined.

Lemma dft_frequency_grids_witness :
  (dft pi_approx cexp_order1 [dz 0; dz 1] [dz 1; dz 1] ([dz 1] ++ [dz 2]) []).2
  = (dft pi_approx cexp_order1 [dz 0; dz 1] [dz 1; dz 1] [dz 1] [imagI]).2
      ++ (dft pi_approx cexp_order1 [dz 0; dz 1] [dz 1; dz 1] [dz 2] []).2.
Proof.
  apply (dft_frequency_grids pi_approx cexp_order1 [dz 0; dz 1] [dz 1; dz 1]
           [dz 1] [dz 2] [] [imagI] []).
  reflexivity.
Defined.

Lemma dft_short_series_witness :
  dft pi_approx cexp_order1 [] [dz 1] [dz 1] [imagI] = (Throw dft_degenerate, [imagI]).
Proof.
  apply (dft_short_series pi_approx cexp_order1 [] [dz 1] [dz 1] [imagI]).
  simpl. lia.
Defined.

Lemma dft_maxFreq_agree_witness :
  ((exists f, maxFreq_with isSortedStrict [dz 0; dz 1; dz 3] = Ok f) /\
   (dft pi_approx cexp_order1 [dz 0; dz 1; dz 3] [dz 1; dz 1; dz 1] [dz 1] []).1
   = Ok tt) \/
  (maxFreq_with isSortedStrict [dz 0; dz 1; dz 3] = Throw maxFreq_unsorted /\
   (dft pi_approx cexp_order1 [dz 0; dz 1; dz 3] [dz 1; dz 1; dz 1] [dz 1] []).1
   = Throw dft_unsorted).
Proof.
  apply (dft_maxFreq_agree pi_approx cexp_order1 isSortedStrict
           [dz 0; dz 1; dz 3] [dz 1; dz 1; dz 1] [dz 1] []).
  - intros l Hl. by apply isSortedStrict_spec.
  - intros l (x & y & Hadj & Hlt).
    destruct (isSortedStrict l) eqn:Hs; [|done]. exfalso.
    pose proof (proj1 (isSortedStrict_spec l) Hs x y Hadj) as Hlt'.
    apply (Qc_lt_irrefl x). by apply Qclt_trans with y.
  - simpl. lia.
  - reflexivity.
  - intros x y (i & Hx & Hy).
    repeat (destruct i as [|i]; cbn in Hx, Hy;
            [simplify_eq; by vm_compute|]; try discriminate).
Defined.

End DftFacts.
